(** * OSA event backend: the public read path

    A shallow embedding of the event-listing backend
    (FastAPI router -> [EventService] -> [EventRepository] -> MySQL)
    and the properties of its two read operations.

    Conventions
    - Python [int] is [Z]; [str] is [string] (UTF-8 bytes); [Optional[T]]
      is [option T]; [Dict[str, str]] is [gmap string string].
    - [datetime] values are only compared, never computed with: they are
      an integer time stamp.
    - Raising is explicit: fallible operations return [result A].
    - The store is MySQL (see [core/database.py]): [NULL] sorts lowest,
      and a negative [LIMIT]/[OFFSET] is rejected by the server. *)

From Stdlib Require Import ZArith DecimalString Ascii.
From Stdlib Require DecimalPos DecimalZ.
From stdpp Require Import gmap strings list sorting.

Local Open Scope string_scope.
Local Open Scope list_scope.
Local Open Scope Z_scope.

(** ** Python values *)

Definition datetime := Z.

(** A JSON value, as stored in a [JSON] column. *)
#[local] Unset Elimination Schemes.
Inductive JSON :=
| JNull
| JBool (b : bool)
| JNumber (n : Z)
| JString (s : string)
| JArray (xs : list JSON)
| JObject (fields : list (string * JSON)).
#[local] Set Elimination Schemes.

(** [str(n)] for an [int]: decimal digits, ["-"] in front of a negative. *)
Definition str (n : Z) : string := NilZero.string_of_int (Z.to_int n).

(** [len(s)] counts code points; in UTF-8 these are the bytes that are not
    continuation bytes [10xxxxxx]. *)
Definition is_continuation (c : ascii) : bool :=
  N.eqb (N.land (N_of_ascii c) 192) 128.

Fixpoint len (s : string) : Z :=
  match s with
  | EmptyString => 0
  | String c s' => (if is_continuation c then 0 else 1) + len s'
  end.

(** Truthiness of a [str] and of an [Optional[str]]. *)
Definition truthy (s : string) : bool :=
  match s with EmptyString => false | String _ _ => true end.

Definition truthy_opt (o : option string) : bool :=
  match o with Some s => truthy s | None => false end.

(** [a or b] on two [Optional[str]] operands. *)
Definition py_or (a b : option string) : option string :=
  if truthy_opt a then a else b.

(** [a or default] where the right operand is a plain [str]. *)
Definition or_default (a : option string) (default : string) : string :=
  match a with
  | Some s => if truthy s then s else default
  | None => default
  end.

(** [next((x for x in xs if p(x)), default)]. *)
Fixpoint next {A} (p : A -> bool) (xs : list A) (default : option A) : option A :=
  match xs with
  | [] => default
  | x :: xs' => if p x then Some x else next p xs' default
  end.

(** ** Exceptions and the error monad *)

Inductive exception :=
| HTTPException (status_code : Z) (detail : string)
    (* fastapi.HTTPException *)
| ValidationError (model field : string)
    (* pydantic: a required [str] field was given [None] *)
| RequestValidationError (params : list string)
    (* fastapi: these query parameters violate their [Query(...)] bounds *)
| ProgrammingError.
    (* the server rejects the statement (negative LIMIT/OFFSET) *)

Inductive result (A : Type) :=
| Ok (a : A)
| Raise (e : exception).
Arguments Ok {A} a.
Arguments Raise {A} e.

(** [x <- r;; k] runs [k] on the value of [r] and lets an exception of
    [r] propagate. *)
Definition bind {A B} (r : result A) (k : A -> result B) : result B :=
  match r with
  | Ok a => k a
  | Raise e => Raise e
  end.

Notation "x <- r ;; k" := (bind r (fun x => k))
  (at level 62, r at next level, right associativity).

(** A list comprehension whose element expression may raise: elements are
    built left to right and the first exception aborts the whole list. *)
Fixpoint comprehension {A B} (f : A -> result B) (xs : list A) : result (list B) :=
  match xs with
  | [] => Ok []
  | x :: xs' =>
      y <- f x;;
      ys <- comprehension f xs';;
      Ok (y :: ys)
  end.

(** ** models/constants.py *)

Module EventStatus.
Definition DRAFT : Z := 0.
Definition PUBLISHED : Z := 1.
Definition ARCHIVED : Z := 2.
End EventStatus.

(** ** models/event_model.py *)

Module EventCategory.
Record t := mk {
  id : Z;
  slug : string;
  names : gmap string string;
  is_active : bool;
  sort_order : Z
}.
End EventCategory.

Module EventTranslation.
Record t := mk {
  id : Z;
  event_id : Z;
  locale : string;
  title : string;
  content : option string;
  location : option string
}.
End EventTranslation.

Module EventAttachment.
Record t := mk {
  id : Z;
  event_id : Z;
  type : string;
  path : string;
  title : option string;
  sort_order : Z
}.
End EventAttachment.

(** An [Event] with its relationships populated.  [category_id] is a
    [NOT NULL] foreign key, so a stored event always has its category row;
    [translations] and [attachments] are the related rows. *)
Module Event.
Record t := mk {
  id : Z;
  category_id : Z;
  status : Z;
  starts_at : option datetime;
  ends_at : option datetime;
  published_at : option datetime;
  organizer_info : option (gmap string JSON);
  is_target : bool;
  is_featured : bool;
  created_at : option datetime;
  updated_at : option datetime;
  deleted_at : option datetime;
  category : EventCategory.t;
  translations : list EventTranslation.t;
  attachments : list EventAttachment.t
}.
End Event.

(** ** schemas/event_schema.py *)

Module CategoryPublic.
Record t := mk { slug : string; name : string }.
End CategoryPublic.

Module AttachmentPublic.
Record t := mk { type : string; title : string; path : string }.

(** The pydantic constructor: every field is a required [str], so a
    [None] title fails validation. *)
Definition init (type : string) (title : option string) (path : string) : result t :=
  match title with
  | Some s => Ok (mk type s path)
  | None => Raise (ValidationError "AttachmentPublic" "title")
  end.
End AttachmentPublic.

Module EventListView.
Record t := mk {
  id : Z;
  slug : string;
  title : string;
  category : CategoryPublic.t;
  published_at : option datetime;
  organizer_info : option (gmap string JSON)
}.
End EventListView.

(** [EventDetailView] inherits the six fields of [EventListView] and adds
    three of its own. *)
Module EventDetailView.
Record t := mk {
  id : Z;
  slug : string;
  title : string;
  category : CategoryPublic.t;
  published_at : option datetime;
  organizer_info : option (gmap string JSON);
  content : option string;
  location : option string;
  attachments : list AttachmentPublic.t
}.
End EventDetailView.

(** ** The store

    A [Session] gives access to the [events] table.  Each row is kept with
    the rows related to it: its category, its translations and its
    attachments, the latter two in the order the tables hold them. *)

Module Session.
Record t := mk { events : list Event.t }.
End Session.

(** [id] is the primary key of [events]. *)
Definition primary_key (session : Session.t) : Prop :=
  NoDup (Event.id <$> Session.events session).

(** *** Ordering

    MySQL orders [NULL] below every value: ascending puts it first,
    descending last. *)
Definition null_le (a b : option datetime) : Prop :=
  match a, b with
  | None, _ => True
  | Some _, None => False
  | Some x, Some y => x ≤ y
  end.

#[global] Instance null_le_dec a b : Decision (null_le a b).
Proof. destruct a, b; simpl; apply _. Defined.

(** [ORDER BY published_at DESC]: [a] may come before [b]. *)
Definition published_at_desc (a b : Event.t) : Prop :=
  null_le (Event.published_at b) (Event.published_at a).

#[global] Instance published_at_desc_dec a b : Decision (published_at_desc a b).
Proof. unfold published_at_desc. apply _. Defined.

(** [ORDER BY sort_order] (ascending) on attachments. *)
Definition sort_order_asc (a b : EventAttachment.t) : Prop :=
  EventAttachment.sort_order a ≤ EventAttachment.sort_order b.

#[global] Instance sort_order_asc_dec a b : Decision (sort_order_asc a b).
Proof. unfold sort_order_asc. apply _. Defined.

(** [ORDER BY]: the rows sorted along [R].  The server is free in how it
    orders rows that compare equal, statement by statement; the model
    fixes one such order, so what is said of two separate statements
    together is said for rows that do not compare equal. *)
Definition order_by {A} (R : relation A) `{!∀ x y, Decision (R x y)}
    (rows : list A) : list A :=
  merge_sort R rows.

(** [OFFSET skip LIMIT limit]; the server refuses a negative bound.  It
    also refuses a bound above [2^64 - 1]; the model does not go that
    far, and where a property needs the statement to succeed it keeps the
    bounds in that range. *)
Definition offset_limit {A} (skip limit : Z) (rows : list A) : result (list A) :=
  if decide (skip < 0 ∨ limit < 0) then Raise ProgrammingError
  else Ok (take (Z.to_nat limit) (drop (Z.to_nat skip) rows)).

(** [selectinload] of the three relationships.  [Event.attachments] is
    declared with [order_by = EventAttachment.sort_order]; the other two
    come as stored. *)
Definition selectinload (e : Event.t) : Event.t :=
  {| Event.id := Event.id e;
     Event.category_id := Event.category_id e;
     Event.status := Event.status e;
     Event.starts_at := Event.starts_at e;
     Event.ends_at := Event.ends_at e;
     Event.published_at := Event.published_at e;
     Event.organizer_info := Event.organizer_info e;
     Event.is_target := Event.is_target e;
     Event.is_featured := Event.is_featured e;
     Event.created_at := Event.created_at e;
     Event.updated_at := Event.updated_at e;
     Event.deleted_at := Event.deleted_at e;
     Event.category := Event.category e;
     Event.translations := Event.translations e;
     Event.attachments := order_by sort_order_asc (Event.attachments e) |}.

(** ** repositories/event_repository.py *)

Module EventRepository.
Record t := mk { session : Session.t }.

(** The rows both queries keep: not soft-deleted and published. *)
Definition qualifying (self : t) : list Event.t :=
  filter (λ e, Event.status e = EventStatus.PUBLISHED)
    (filter (λ e, Event.deleted_at e = None)
       (Session.events (session self))).

Definition get_list (self : t) (skip limit : Z) : result (list Event.t) :=
  results <- offset_limit skip limit
               (order_by published_at_desc (qualifying self));;
  Ok (selectinload <$> results).

Definition get_by_id (self : t) (event_id : Z) : option Event.t :=
  selectinload <$>
    head (filter (λ e, Event.status e = EventStatus.PUBLISHED)
            (filter (λ e, Event.deleted_at e = None)
               (filter (λ e, Event.id e = event_id)
                  (Session.events (session self))))).
End EventRepository.

(** ** services/event_service.py *)

Module EventService.
Record t := mk { repository : EventRepository.t }.

Definition _get_translation (event : Event.t) (locale : string)
    : option EventTranslation.t :=
  let translation :=
    next (λ t, bool_decide (EventTranslation.locale t = locale))
         (Event.translations event) None in
  match translation, Event.translations event with
  | None, _ :: _ =>
      next (λ t, bool_decide (EventTranslation.locale t = "zh-TW"))
           (Event.translations event) (head (Event.translations event))
  | _, _ => translation
  end.

Definition _get_json_text (data_dict : gmap string string)
    (locale : string) (default : string) : string :=
  if decide (data_dict = ∅) then default
  else or_default (py_or (data_dict !! locale) (data_dict !! "zh-TW")) default.

Definition _transform_to_list_view (event : Event.t) (locale : string)
    : EventListView.t :=
  let trans := _get_translation event locale in
  let title :=
    match trans with
    | Some t => EventTranslation.title t
    | None => "No Translation"
    end in
  let cat_name :=
    _get_json_text (EventCategory.names (Event.category event)) locale
                   "No Category" in
  let category_dto :=
    CategoryPublic.mk (EventCategory.slug (Event.category event)) cat_name in
  EventListView.mk
    (Event.id event)
    (EventCategory.slug (Event.category event) +:+ "-" +:+ str (Event.id event))
    title
    category_dto
    (Event.published_at event)
    (Event.organizer_info event).

Definition _transform_to_detail_view (event : Event.t) (locale : string)
    : result EventDetailView.t :=
  let base_view := _transform_to_list_view event locale in
  let trans := _get_translation event locale in
  attachment_dtos <-
    comprehension
      (λ att, AttachmentPublic.init (EventAttachment.type att)
                                    (EventAttachment.title att)
                                    (EventAttachment.path att))
      (Event.attachments event);;
  Ok (EventDetailView.mk
        (EventListView.id base_view)
        (EventListView.slug base_view)
        (EventListView.title base_view)
        (EventListView.category base_view)
        (EventListView.published_at base_view)
        (EventListView.organizer_info base_view)
        (match trans with Some t => EventTranslation.content t | None => None end)
        (match trans with Some t => EventTranslation.location t | None => None end)
        attachment_dtos).

Definition get_events (self : t) (locale : string) (page page_size : Z)
    : result (list EventListView.t) :=
  let skip := (page - 1) * page_size in
  raw_events <- EventRepository.get_list (repository self) skip page_size;;
  Ok ((λ event, _transform_to_list_view event locale) <$> raw_events).

Definition get_event_detail (self : t) (event_id : Z) (locale : string)
    : result EventDetailView.t :=
  match EventRepository.get_by_id (repository self) event_id with
  | None => Raise (HTTPException 404 "Event not found")
  | Some event => _transform_to_detail_view event locale
  end.
End EventService.

(** ** dependencies.py *)

Definition get_event_service (session : Session.t) : EventService.t :=
  EventService.mk (EventRepository.mk session).

(** ** routers/event_router.py

    A query parameter left out of the request is [None] and takes the
    default of its [Query(...)].  The parameters are taken as parsed: a
    [page] or [size] that is not an integer is turned down by the
    framework before [read_events] is entered. *)

Module event_router.
Definition read_events (locale : option string) (page size : option Z)
    (service : EventService.t) : result (list EventListView.t) :=
  let locale := default "zh-TW" locale in
  let page := default 1 page in
  let size := default 10 size in
  let errors : list string :=
    (if decide (len locale ≤ 10) then [] else ["locale"]) ++
    (if decide (1 ≤ page) then [] else ["page"]) ++
    (if decide (1 ≤ size ≤ 100) then [] else ["size"]) in
  match errors with
  | [] => EventService.get_events service locale page size
  | _ :: _ => Raise (RequestValidationError errors)
  end.

Definition read_event_detail (event_id : Z) (locale : option string)
    (service : EventService.t) : result EventDetailView.t :=
  let locale := default "zh-TW" locale in
  EventService.get_event_detail service event_id locale.
End event_router.

(** * Sample data *)

Module Sample.
Definition general : EventCategory.t :=
  EventCategory.mk 1 "talk" {[ "zh-TW" := "講座"; "en-US" := "Talk" ]} true 0.

Definition tr (id event_id : Z) (locale title : string) : EventTranslation.t :=
  EventTranslation.mk id event_id locale title (Some ("<p>" +:+ title +:+ "</p>")) (Some "Taipei").

Definition att (id event_id : Z) (title : option string) (sort_order : Z)
    : EventAttachment.t :=
  EventAttachment.mk id event_id "image" ("/uploads/" +:+ str id +:+ ".png")
                     title sort_order.

Definition event (id status : Z) (published_at deleted_at : option datetime)
    (translations : list EventTranslation.t)
    (attachments : list EventAttachment.t) : Event.t :=
  Event.mk id 1 status None None published_at None false false
           (Some 0) (Some 0) deleted_at general translations attachments.
End Sample.

(** A published event without translations whose only attachment has no
    title. *)
Definition untitled_event : Event.t :=
  Sample.event 3 EventStatus.PUBLISHED None None [] [Sample.att 3 3 None 0].

(** Two events whose slugs coincide although their categories differ:
    one has a negative id, the other a category slug ending in a dash. *)
Definition event_negative_id : Event.t :=
  Event.mk (-1) 2 EventStatus.PUBLISHED None None None None false false
           None None None (EventCategory.mk 2 "a" ∅ true 0) [] [].

Definition event_dash_category : Event.t :=
  Event.mk 1 3 EventStatus.PUBLISHED None None None None false false
           None None None (EventCategory.mk 3 "a-" ∅ true 0) [] [].

(** A small store: event 1 is published with two translations and two
    attachments stored out of order; event 2 is a draft; event 3 is
    published, has no translation and an attachment without a title;
    event 4 is published with a zh-TW translation; event 5 is published
    but soft-deleted. *)
Definition sample_session : Session.t :=
  Session.mk [
    Sample.event 1 EventStatus.PUBLISHED (Some 100) None
      [Sample.tr 1 1 "en-US" "Hello"; Sample.tr 2 1 "fr-FR" "Salut"]
      [Sample.att 1 1 (Some "b") 2; Sample.att 2 1 (Some "a") 1];
    Sample.event 2 EventStatus.DRAFT (Some 300) None [] [];
    untitled_event;
    Sample.event 4 EventStatus.PUBLISHED (Some 200) None
      [Sample.tr 3 4 "zh-TW" "嗨"] [];
    Sample.event 5 EventStatus.PUBLISHED (Some 400) (Some 500) [] []
  ].

Definition sample_service : EventService.t := get_event_service sample_session.

(** * Vocabulary of the properties *)

(** [x] is the first element of [xs], in stored order, that satisfies [P]. *)
Definition first_with {A} (P : A -> Prop) (xs : list A) (x : A) : Prop :=
  ∃ l1 l2, xs = l1 ++ x :: l2 ∧ Forall (λ y, ¬ P y) l1 ∧ P x.

Definition has_locale (locale : string) (t : EventTranslation.t) : Prop :=
  EventTranslation.locale t = locale.

(** A localized text is missing at key [k]: no such key, or a falsy value
    (the empty string). *)
Definition missing (data_dict : gmap string string) (k : string) : Prop :=
  data_dict !! k = None ∨ data_dict !! k = Some "".

(** [dto] is the display form of [att]: its type, title and path. *)
Definition displays (att : EventAttachment.t) (dto : AttachmentPublic.t) : Prop :=
  AttachmentPublic.type dto = EventAttachment.type att
  ∧ Some (AttachmentPublic.title dto) = EventAttachment.title att
  ∧ AttachmentPublic.path dto = EventAttachment.path att.

(** The element expression of the attachment comprehension. *)
Definition attachment_dto (att : EventAttachment.t) : result AttachmentPublic.t :=
  AttachmentPublic.init (EventAttachment.type att) (EventAttachment.title att)
                        (EventAttachment.path att).

Definition has_title (att : EventAttachment.t) : Prop :=
  EventAttachment.title att ≠ None.

(** An event a public read may return: not soft-deleted and published. *)
Definition visible (e : Event.t) : Prop :=
  Event.deleted_at e = None ∧ Event.status e = EventStatus.PUBLISHED.

(** The qualifying sequence that [get_list] pages through: the visible
    rows, newest [published_at] first, relationships loaded. *)
Definition published_sequence (self : EventRepository.t) : list Event.t :=
  selectinload <$> order_by published_at_desc (EventRepository.qualifying self).

(** The bounds the [Query(...)] declarations of [read_events] put on its
    parameters, defaults filled in. *)
Definition valid_request (locale : string) (page size : Z) : Prop :=
  len locale ≤ 10 ∧ 1 ≤ page ∧ 1 ≤ size ≤ 100.

(** A string without the character ["-"]. *)
Fixpoint dash_free (s : string) : Prop :=
  match s with
  | EmptyString => True
  | String c s' => c ≠ "-"%char ∧ dash_free s'
  end.

(** The largest row count the server accepts after [LIMIT] or [OFFSET]
    (an unsigned 64-bit integer). *)
Definition max_offset : Z := 2 ^ 64 - 1.

(** No two qualifying rows have the same [published_at] (two rows
    without one count as having the same): [ORDER BY published_at] then
    leaves the server no choice. *)
Definition no_ties (self : EventRepository.t) : Prop :=
  ∀ a b, a ∈ EventRepository.qualifying self →
         b ∈ EventRepository.qualifying self →
         Event.published_at a = Event.published_at b → a = b.

(** * Properties *)

(** ** Python helpers *)

Section next_facts.
Context {A : Type} (p : A -> bool).

Lemma next_none xs default :
  Forall (λ x, p x = false) xs → next p xs default = default.
Proof.
  induction 1 as [|x xs Hx _ IH]; simpl; [done|]. by rewrite Hx.
Qed.

Lemma next_first l1 x l2 default :
  Forall (λ y, p y = false) l1 → p x = true →
  next p (l1 ++ x :: l2) default = Some x.
Proof.
  induction 1 as [|y l1 Hy _ IH]; simpl; intros Hx.
  - by rewrite Hx.
  - rewrite Hy. by apply IH.
Qed.

Lemma next_found (xs : list A) x :
  x ∈ xs → p x = true →
  ∃ l1 y l2, xs = l1 ++ y :: l2 ∧ Forall (λ z, p z = false) l1 ∧ p y = true.
Proof.
  induction xs as [|z xs IH]; intros Hin Hx; [by apply elem_of_nil in Hin|].
  destruct (p z) eqn:Hz.
  - exists [], z, xs. by repeat split.
  - apply elem_of_cons in Hin as [->|Hin]; [congruence|].
    destruct (IH Hin Hx) as (l1 & y & l2 & -> & Hl1 & Hy).
    exists (z :: l1), y, l2. repeat split; [|done]. by constructor.
Qed.
End next_facts.

Section comprehension_facts.
Context {A B : Type} (f : A -> result B).

Lemma comprehension_Ok xs ys :
  comprehension f xs = Ok ys ↔ Forall2 (λ x y, f x = Ok y) xs ys.
Proof.
  split.
  - revert ys. induction xs as [|x xs IH]; simpl; intros ys H.
    + injection H as <-. constructor.
    + destruct (f x) as [y|e] eqn:Hx; simpl in H; [|done].
      destruct (comprehension f xs) as [ys'|e]; simpl in H; [|done].
      injection H as <-. constructor; [done|]. by apply IH.
  - induction 1 as [|x y xs ys Hx _ IH]; simpl; [done|].
    by rewrite Hx, IH.
Qed.

Lemma comprehension_total xs :
  Forall (λ x, ∃ y, f x = Ok y) xs → ∃ ys, comprehension f xs = Ok ys.
Proof.
  induction 1 as [|x xs [y Hy] _ [ys IH]]; simpl; [by eexists|].
  rewrite Hy, IH. by eexists.
Qed.

Lemma comprehension_Raise xs e :
  comprehension f xs = Raise e → ∃ x, x ∈ xs ∧ f x = Raise e.
Proof.
  induction xs as [|x xs IH]; simpl; [done|].
  destruct (f x) as [y|e'] eqn:Hx; simpl.
  - destruct (comprehension f xs) as [ys|e'']; simpl; [done|].
    intros [= ->]. destruct IH as (x' & Hin & Hx'); [done|].
    exists x'. split; [by right|done].
  - intros [= ->]. exists x. split; [by left|done].
Qed.
End comprehension_facts.

(** ** Locale resolution *)

Section first_with_facts.
Context {A : Type} (P : A -> Prop) (p : A -> bool).
Hypothesis p_spec : ∀ y, p y = true ↔ P y.

Lemma p_false y : ¬ P y → p y = false.
Proof. rewrite <-p_spec. by destruct (p y). Qed.

Lemma first_with_exists (xs : list A) x :
  x ∈ xs → P x → ∃ y, first_with P xs y.
Proof.
  intros Hin HP.
  destruct (next_found p xs x Hin) as (l1 & y & l2 & -> & Hl1 & Hy).
  { by apply p_spec. }
  exists y, l1, l2. split; [done|]. split.
  - eapply Forall_impl; [exact Hl1|]. intros z Hz HPz.
    apply p_spec in HPz. congruence.
  - by apply p_spec.
Qed.

Lemma next_first_with (xs : list A) default x :
  first_with P xs x → next p xs default = Some x.
Proof.
  intros (l1 & l2 & -> & Hl1 & Hx). apply next_first.
  - eapply Forall_impl; [exact Hl1|]. apply p_false.
  - by apply p_spec.
Qed.

Lemma next_no_match (xs : list A) default :
  Forall (λ y, ¬ P y) xs → next p xs default = default.
Proof.
  intros Hno. apply next_none. eapply Forall_impl; [exact Hno|]. apply p_false.
Qed.
End first_with_facts.

Lemma locale_test locale (t : EventTranslation.t) :
  bool_decide (EventTranslation.locale t = locale) = true ↔ has_locale locale t.
Proof. apply bool_decide_eq_true. Qed.

(** C1.  [_get_translation] returns the translation in the requested
    locale when the event has one; otherwise, when the event has
    translations, the one in "zh-TW" if present and else the first one in
    stored order; with no translation at all it returns [None].  With
    translations in "en-US" and "fr-FR" only, a request for "zh-TW" gets
    the "en-US" one. *)
Theorem get_translation_resolution (event : Event.t) (locale : string) :
  (∀ t, t ∈ Event.translations event → has_locale locale t →
     ∃ t', first_with (has_locale locale) (Event.translations event) t'
           ∧ EventService._get_translation event locale = Some t')
  ∧ (∀ t, Forall (λ t', ¬ has_locale locale t') (Event.translations event) →
       t ∈ Event.translations event → has_locale "zh-TW" t →
       ∃ t', first_with (has_locale "zh-TW") (Event.translations event) t'
             ∧ EventService._get_translation event locale = Some t')
  ∧ (∀ first rest, Event.translations event = first :: rest →
       Forall (λ t', ¬ has_locale locale t') (Event.translations event) →
       Forall (λ t', ¬ has_locale "zh-TW" t') (Event.translations event) →
       EventService._get_translation event locale = Some first)
  ∧ (Event.translations event = [] →
       EventService._get_translation event locale = None)
  ∧ (∀ en fr, Event.translations event = [en; fr] →
       has_locale "en-US" en → has_locale "fr-FR" fr →
       EventService._get_translation event "zh-TW" = Some en).
Proof.
  unfold EventService._get_translation.
  repeat split.
  - intros t Hin Ht.
    destruct (first_with_exists _ _ (locale_test locale) _ t Hin Ht) as [t' Ht'].
    exists t'. split; [done|].
    by rewrite (next_first_with _ _ (locale_test locale) _ None t' Ht').
  - intros t Hno Hin Ht.
    destruct (first_with_exists _ _ (locale_test "zh-TW") _ t Hin Ht) as [t' Ht'].
    exists t'. split; [done|].
    rewrite (next_no_match _ _ (locale_test locale) _ None Hno).
    destruct (Event.translations event) as [|t0 ts] eqn:E.
    + by apply elem_of_nil in Hin.
    + by apply (next_first_with _ _ (locale_test "zh-TW")).
  - intros first rest E Hno Hzh.
    rewrite (next_no_match _ _ (locale_test locale) _ None Hno).
    rewrite (next_no_match _ _ (locale_test "zh-TW") _ _ Hzh).
    by rewrite E.
  - by intros ->.
  - intros en fr E Hen Hfr. rewrite E. unfold has_locale in *. simpl.
    rewrite Hen, Hfr. reflexivity.
Qed.

(** The double fallback on the sample store: event 1 has "en-US" and
    "fr-FR" only. *)
Example get_translation_sample :
  ∀ e, Session.events sample_session !! 0%nat = Some e →
    EventTranslation.title <$> EventService._get_translation e "zh-TW" = Some "Hello"
    ∧ EventTranslation.title <$> EventService._get_translation e "fr-FR" = Some "Salut".
Proof. intros e [= <-]. split; reflexivity. Qed.

(** ** Localized text *)

(** C3.  [_get_json_text] returns the text at the requested locale when
    it is present and non-empty, else the text at "zh-TW" under the same
    rule, else the default. *)
Theorem get_json_text_fallback (data_dict : gmap string string)
    (locale default : string) :
  (∀ s, data_dict !! locale = Some s → s ≠ "" →
     EventService._get_json_text data_dict locale default = s)
  ∧ (∀ s, missing data_dict locale →
       data_dict !! "zh-TW" = Some s → s ≠ "" →
       EventService._get_json_text data_dict locale default = s)
  ∧ (missing data_dict locale → missing data_dict "zh-TW" →
       EventService._get_json_text data_dict locale default = default)
  ∧ EventService._get_json_text {[ "en-US" := "Hi" ]} "fr-FR" "Unknown" = "Unknown"
  ∧ EventService._get_json_text {[ "zh-TW" := "嗨" ]} "fr-FR" "Unknown" = "嗨".
Proof.
  unfold EventService._get_json_text, missing.
  split; [|split; [|split; [|split]]].
  - intros s Hs Hne. destruct (decide (data_dict = ∅)) as [->|_].
    + by rewrite lookup_empty in Hs.
    + rewrite Hs. unfold py_or. simpl. by destruct s.
  - intros s Hmiss Hs Hne. destruct (decide (data_dict = ∅)) as [->|_].
    + by rewrite lookup_empty in Hs.
    + rewrite Hs. destruct Hmiss as [-> | ->]; unfold py_or; simpl; by destruct s.
  - intros Hl Hz. destruct (decide (data_dict = ∅)) as [->|_]; [done|].
    destruct Hl as [-> | ->], Hz as [-> | ->]; reflexivity.
  - reflexivity.
  - reflexivity.
Qed.

(** ** The store *)

#[global] Instance null_le_total : Total null_le.
Proof. intros [x|] [y|]; simpl; auto. lia. Qed.

#[global] Instance null_le_trans : Transitive null_le.
Proof. intros [x|] [y|] [z|]; simpl; auto; try done. lia. Qed.

#[global] Instance published_at_desc_total : Total published_at_desc.
Proof. intros a b. unfold published_at_desc. destruct (total null_le (Event.published_at a) (Event.published_at b)); auto. Qed.

#[global] Instance published_at_desc_trans : Transitive published_at_desc.
Proof. intros a b c Hab Hbc. unfold published_at_desc in *. by etrans. Qed.

#[global] Instance sort_order_asc_total : Total sort_order_asc.
Proof. intros a b. unfold sort_order_asc. lia. Qed.

#[global] Instance sort_order_asc_trans : Transitive sort_order_asc.
Proof. intros a b c. unfold sort_order_asc. lia. Qed.

Lemma StronglySorted_lookup_lt {A} (R : relation A) (l : list A) :
  StronglySorted R l →
  ∀ (i j : nat) x y, l !! i = Some x → l !! j = Some y → (i < j)%nat → R x y.
Proof.
  induction 1 as [|a l _ IH Ha]; intros i j x y Hi Hj Hlt.
  - by rewrite lookup_nil in Hi.
  - destruct j as [|j]; [lia|]. simpl in Hj. destruct i as [|i]; simpl in Hi.
    + injection Hi as <-. rewrite Forall_forall in Ha. apply Ha.
      by eapply list_elem_of_lookup_2.
    + eapply IH; eauto. lia.
Qed.

Lemma order_by_sorted {A} (R : relation A) `{!∀ x y, Decision (R x y)}
    `{!Total R, !Transitive R} (rows : list A) :
  StronglySorted R (order_by R rows).
Proof. apply StronglySorted_merge_sort; apply _. Qed.

Lemma order_by_perm {A} (R : relation A) `{!∀ x y, Decision (R x y)}
    (rows : list A) :
  order_by R rows ≡ₚ rows.
Proof. apply merge_sort_Permutation. Qed.

Lemma offset_limit_Ok {A} (skip limit : Z) (rows : list A) :
  0 ≤ skip → 0 ≤ limit →
  offset_limit skip limit rows
  = Ok (take (Z.to_nat limit) (drop (Z.to_nat skip) rows)).
Proof. intros. unfold offset_limit. case_decide; [lia|done]. Qed.

Lemma offset_limit_inv {A} (skip limit : Z) (rows res : list A) :
  offset_limit skip limit rows = Ok res →
  res = take (Z.to_nat limit) (drop (Z.to_nat skip) rows).
Proof. unfold offset_limit. case_decide; [done|]. by intros [= <-]. Qed.

Lemma pk_inj {A} (f : A -> Z) (l : list A) x y :
  NoDup (f <$> l) → x ∈ l → y ∈ l → f x = f y → x = y.
Proof.
  induction l as [|a l IH]; intros Hnd Hx Hy Hf; [by apply elem_of_nil in Hx|].
  rewrite fmap_cons in Hnd. apply NoDup_cons in Hnd as [Ha Hnd].
  apply elem_of_cons in Hx as [->|Hx]; apply elem_of_cons in Hy as [->|Hy]; auto.
  - exfalso. apply Ha. rewrite Hf. by apply list_elem_of_fmap_2.
  - exfalso. apply Ha. rewrite <-Hf. by apply list_elem_of_fmap_2.
Qed.

Section repository_facts.
Variable self : EventRepository.t.

Lemma elem_of_qualifying row :
  row ∈ EventRepository.qualifying self
  ↔ row ∈ Session.events (EventRepository.session self) ∧ visible row.
Proof.
  unfold EventRepository.qualifying, visible.
  rewrite !list_elem_of_filter. tauto.
Qed.

Lemma elem_of_published_sequence e :
  e ∈ published_sequence self
  ↔ ∃ row, e = selectinload row
           ∧ row ∈ Session.events (EventRepository.session self) ∧ visible row.
Proof.
  unfold published_sequence. rewrite list_elem_of_fmap.
  split; intros (row & -> & H); exists row; split; try done.
  - rewrite order_by_perm in H. by apply elem_of_qualifying.
  - rewrite order_by_perm. by apply elem_of_qualifying.
Qed.

Lemma get_list_inv skip limit results :
  EventRepository.get_list self skip limit = Ok results →
  results = take (Z.to_nat limit) (drop (Z.to_nat skip) (published_sequence self)).
Proof.
  unfold EventRepository.get_list, published_sequence.
  destruct (offset_limit _ _ _) as [rows|e] eqn:E; simpl; [|done].
  intros [= <-]. apply offset_limit_inv in E as ->.
  by rewrite fmap_take, fmap_drop.
Qed.

Lemma get_list_Ok skip limit :
  0 ≤ skip → 0 ≤ limit →
  EventRepository.get_list self skip limit
  = Ok (take (Z.to_nat limit) (drop (Z.to_nat skip) (published_sequence self))).
Proof.
  intros. unfold EventRepository.get_list, published_sequence.
  rewrite offset_limit_Ok by done. simpl.
  by rewrite fmap_take, fmap_drop.
Qed.

Lemma get_list_elem skip limit results e :
  EventRepository.get_list self skip limit = Ok results → e ∈ results →
  e ∈ published_sequence self.
Proof.
  intros ->%get_list_inv Hin.
  by eapply subseteq_drop, subseteq_take.
Qed.

Lemma get_by_id_Some event_id e :
  EventRepository.get_by_id self event_id = Some e
  ↔ ∃ row, e = selectinload row
     ∧ first_with (λ r, Event.id r = event_id ∧ visible r)
                  (Session.events (EventRepository.session self)) row.
Proof.
  unfold EventRepository.get_by_id, first_with, visible.
  induction (Session.events (EventRepository.session self)) as [|r rows IH].
  - simpl. split; [done|]. intros (row & _ & l1 & l2 & H & _). by destruct l1.
  - rewrite (filter_cons _ r).
    destruct (decide (Event.id r = event_id)) as [Hid|Hid];
      [rewrite (filter_cons _ r);
       destruct (decide (Event.deleted_at r = None)) as [Hdel|Hdel];
       [rewrite (filter_cons _ r);
        destruct (decide (Event.status r = EventStatus.PUBLISHED)) as [Hst|Hst]|]|].
    { simpl. split.
      - intros [= <-]. exists r. split; [done|]. exists [], rows. by repeat split.
      - intros (row & -> & l1 & l2 & H & Hl1 & Hrow).
        destruct l1 as [|r' l1]; simpl in H; injection H as -> ->; [done|].
        apply Forall_cons in Hl1 as [Hr _]. tauto. }
    all: rewrite IH; split; intros (row & -> & l1 & l2 & H & Hl1 & Hrow);
      exists row; (split; [done|]).
    all: try (exists (r :: l1), l2; rewrite H; split; [done|]; split; [|done];
              constructor; [tauto|done]).
    all: destruct l1 as [|r' l1]; simpl in H; injection H as -> ->;
      [tauto|]; apply Forall_cons in Hl1 as [_ Hl1]; by exists l1, l2.
Qed.

Lemma get_by_id_None event_id :
  EventRepository.get_by_id self event_id = None
  ↔ ∀ row, row ∈ Session.events (EventRepository.session self) →
           Event.id row = event_id → ¬ visible row.
Proof.
  unfold EventRepository.get_by_id, visible.
  rewrite fmap_None, head_None. split.
  - intros Hnil row Hin Hid Hvis.
    eapply (filter_nil_not_elem_of _ _ row); [exact Hnil|tauto|].
    rewrite !list_elem_of_filter. tauto.
  - intros Hall.
    destruct (filter _ _) as [|r l] eqn:E; [done|]. exfalso.
    assert (Hr : r ∈ r :: l) by left. rewrite <-E in Hr.
    rewrite !list_elem_of_filter in Hr. apply (Hall r); tauto.
Qed.

Lemma get_by_id_pk row :
  primary_key (EventRepository.session self) →
  row ∈ Session.events (EventRepository.session self) → visible row →
  EventRepository.get_by_id self (Event.id row) = Some (selectinload row).
Proof.
  intros Hpk Hin Hvis.
  destruct (EventRepository.get_by_id self (Event.id row)) as [e|] eqn:E.
  - apply get_by_id_Some in E as (r & -> & l1 & l2 & Hrows & _ & Hid & _).
    f_equal. f_equal. apply (pk_inj Event.id _ r row Hpk); [|done..].
    rewrite Hrows. apply elem_of_app. right. left.
  - exfalso. by eapply get_by_id_None.
Qed.
End repository_facts.

(** ** Visibility *)

(** C2.  An event that is soft-deleted or not published is never among
    the results of [get_list] and is never what [get_by_id] returns, so
    every event read is visible; and, [id] being the primary key, no
    result of [get_list] carries the id of a hidden row and [get_by_id]
    on that id returns [None]. *)
Theorem hidden_events_never_read (self : EventRepository.t) :
  (∀ e, Event.deleted_at e ≠ None ∨ Event.status e ≠ EventStatus.PUBLISHED →
     (∀ skip limit results,
        EventRepository.get_list self skip limit = Ok results → e ∉ results)
     ∧ (∀ event_id, EventRepository.get_by_id self event_id ≠ Some e))
  ∧ (∀ skip limit results e,
       EventRepository.get_list self skip limit = Ok results → e ∈ results →
       Event.deleted_at e = None ∧ Event.status e = EventStatus.PUBLISHED)
  ∧ (∀ event_id e,
       EventRepository.get_by_id self event_id = Some e →
       Event.deleted_at e = None ∧ Event.status e = EventStatus.PUBLISHED)
  ∧ (primary_key (EventRepository.session self) →
     ∀ row, row ∈ Session.events (EventRepository.session self) →
       Event.deleted_at row ≠ None ∨ Event.status row ≠ EventStatus.PUBLISHED →
       (∀ skip limit results e,
          EventRepository.get_list self skip limit = Ok results → e ∈ results →
          Event.id e ≠ Event.id row)
       ∧ EventRepository.get_by_id self (Event.id row) = None).
Proof.
  assert (Hlist : ∀ skip limit results e,
       EventRepository.get_list self skip limit = Ok results → e ∈ results →
       ∃ row, e = selectinload row
         ∧ row ∈ Session.events (EventRepository.session self) ∧ visible row).
  { intros skip limit results e Hres Hin.
    apply elem_of_published_sequence. by eapply get_list_elem. }
  assert (Hone : ∀ event_id e,
       EventRepository.get_by_id self event_id = Some e →
       ∃ row, e = selectinload row
         ∧ row ∈ Session.events (EventRepository.session self)
         ∧ Event.id row = event_id ∧ visible row).
  { intros event_id e (row & -> & l1 & l2 & Hrows & _ & Hid & Hvis)%get_by_id_Some.
    exists row. repeat split; try done; try apply Hvis.
    rewrite Hrows. apply elem_of_app. right. left. }
  split; [|split; [|split]].
  - intros e Hhidden. split.
    + intros skip limit results Hres Hin.
      destruct (Hlist _ _ _ _ Hres Hin) as (row & -> & _ & Hdel & Hst).
      simpl in Hhidden. tauto.
    + intros event_id Hget.
      destruct (Hone _ _ Hget) as (row & -> & _ & _ & Hdel & Hst).
      simpl in Hhidden. tauto.
  - intros skip limit results e Hres Hin.
    by destruct (Hlist _ _ _ _ Hres Hin) as (row & -> & _ & Hvis).
  - intros event_id e Hget.
    by destruct (Hone _ _ Hget) as (row & -> & _ & _ & Hvis).
  - intros Hpk row Hrow Hhidden. split.
    + intros skip limit results e Hres Hin Hid.
      destruct (Hlist _ _ _ _ Hres Hin) as (r & -> & Hr & Hdel & Hst).
      simpl in Hid. assert (r = row) as -> by by eapply pk_inj.
      tauto.
    + apply get_by_id_None. intros r Hr Hid [Hdel Hst].
      assert (r = row) as -> by by eapply pk_inj.
      tauto.
Qed.

(** On the sample store only events 4, 1 and 3 are listed, and the draft
    (2) and the soft-deleted event (5) cannot be fetched. *)
Example visibility_sample :
  (results <- EventRepository.get_list (EventRepository.mk sample_session) 0 10;;
   Ok (Event.id <$> results)) = Ok [4; 1; 3]
  ∧ EventRepository.get_by_id (EventRepository.mk sample_session) 2 = None
  ∧ EventRepository.get_by_id (EventRepository.mk sample_session) 5 = None
  ∧ Event.id <$> EventRepository.get_by_id (EventRepository.mk sample_session) 4 = Some 4.
Proof. repeat split. Qed.

Lemma sample_primary_key : primary_key sample_session.
Proof. unfold primary_key. by apply (bool_decide_unpack _). Defined.

(** Event 5 of the sample store is soft-deleted: no page shows its id and
    it cannot be fetched. *)
Lemma hidden_events_never_read_witness :
  primary_key sample_session
  ∧ Event.deleted_at (Sample.event 5 EventStatus.PUBLISHED (Some 400) (Some 500) [] [])
    ≠ None
  ∧ EventRepository.get_by_id (EventRepository.mk sample_session) 5 = None.
Proof.
  split; [exact sample_primary_key|]. split; [discriminate|].
  apply (proj2 (proj2 (proj2 (hidden_events_never_read
                                (EventRepository.mk sample_session))))
           sample_primary_key
           (Sample.event 5 EventStatus.PUBLISHED (Some 400) (Some 500) [] [])).
  - do 4 right. left.
  - left. discriminate.
Defined.

(** ** Pagination *)

Lemma published_sequence_sorted (self : EventRepository.t) :
  StronglySorted published_at_desc (published_sequence self).
Proof.
  unfold published_sequence.
  apply (StronglySorted_fmap selectinload published_at_desc published_at_desc);
    [by intros ??|].
  apply order_by_sorted; apply _.
Qed.

Lemma published_sequence_perm (self : EventRepository.t) :
  published_sequence self ≡ₚ selectinload <$> EventRepository.qualifying self.
Proof. unfold published_sequence. by rewrite order_by_perm. Qed.

Lemma null_le_antisym a b : null_le a b → null_le b a → a = b.
Proof. destruct a, b; simpl; try done. intros. f_equal. lia. Qed.

Lemma published_sequence_unique (self : EventRepository.t) sequence :
  no_ties self →
  sequence ≡ₚ selectinload <$> EventRepository.qualifying self →
  StronglySorted published_at_desc sequence →
  sequence = published_sequence self.
Proof.
  intros Hties Hperm Hsorted.
  apply (StronglySorted_unique_strong published_at_desc);
    [|done|apply published_sequence_sorted|by rewrite published_sequence_perm].
  intros x1 x2 Hx1 Hx2 H12 H21.
  rewrite Hperm in Hx1. rewrite published_sequence_perm in Hx2.
  apply list_elem_of_fmap in Hx1 as (a & -> & Ha), Hx2 as (b & -> & Hb).
  f_equal. apply Hties; [done..|].
  unfold published_at_desc in *. simpl in *. by apply null_le_antisym.
Qed.


Lemma get_events_inv (self : EventService.t) locale page page_size views :
  EventService.get_events self locale page page_size = Ok views →
  views = (λ event, EventService._transform_to_list_view event locale) <$>
            take (Z.to_nat page_size)
              (drop (Z.to_nat ((page - 1) * page_size))
                 (published_sequence (EventService.repository self))).
Proof.
  unfold EventService.get_events.
  destruct (EventRepository.get_list _ _ _) as [rows|e] eqn:E; simpl; [|done].
  intros [= <-]. by apply get_list_inv in E as ->.
Qed.

(** C4.  For a page number [page >= 1] and a page size in [1..100],
    [get_events] asks the repository for [skip = (page - 1) * size] and
    [limit = size] and maps what comes back, rows or exception.  When the
    offset is one the server accepts, what comes back is that window of a
    qualifying sequence: the visible rows, loaded, in an order descending
    in [published_at] (the only such order when no two of them share a
    [published_at]); the router, given a locale of at most ten
    characters, passes the request through.  Page 1 of size 10 is the
    first ten rows of the sequence, page 2 of size 10 its rows 11 to 20. *)
Theorem get_events_pagination (self : EventService.t) (locale : string)
    (page size : Z) :
  1 ≤ page → 1 ≤ size ≤ 100 →
  (∀ results,
     EventRepository.get_list (EventService.repository self) ((page - 1) * size) size
     = Ok results →
     EventService.get_events self locale page size
     = Ok ((λ event, EventService._transform_to_list_view event locale) <$> results))
  ∧ (∀ e,
       EventRepository.get_list (EventService.repository self) ((page - 1) * size) size
       = Raise e →
       EventService.get_events self locale page size = Raise e)
  ∧ ((page - 1) * size ≤ max_offset →
     ∃ sequence,
       sequence ≡ₚ selectinload <$> EventRepository.qualifying (EventService.repository self)
       ∧ StronglySorted published_at_desc sequence
       ∧ (no_ties (EventService.repository self) →
          ∀ sequence',
            sequence' ≡ₚ selectinload <$>
                           EventRepository.qualifying (EventService.repository self) →
            StronglySorted published_at_desc sequence' →
            sequence' = sequence)
       ∧ EventRepository.get_list (EventService.repository self) ((page - 1) * size) size
         = Ok (take (Z.to_nat size) (drop (Z.to_nat ((page - 1) * size)) sequence))
       ∧ EventService.get_events self locale page size
         = Ok ((λ event, EventService._transform_to_list_view event locale) <$>
                 take (Z.to_nat size) (drop (Z.to_nat ((page - 1) * size)) sequence))
       ∧ (len locale ≤ 10 →
          event_router.read_events (Some locale) (Some page) (Some size) self
          = Ok ((λ event, EventService._transform_to_list_view event locale) <$>
                  take (Z.to_nat size) (drop (Z.to_nat ((page - 1) * size)) sequence)))
       ∧ (page = 1 → size = 10 →
          EventService.get_events self locale 1 10
          = Ok ((λ event, EventService._transform_to_list_view event locale) <$>
                  take 10 sequence))
       ∧ (page = 2 → size = 10 →
          EventService.get_events self locale 2 10
          = Ok ((λ event, EventService._transform_to_list_view event locale) <$>
                  take 10 (drop 10 sequence)))).
Proof.
  intros Hpage Hsize.
  split; [|split].
  - intros results Hres. unfold EventService.get_events. by rewrite Hres.
  - intros e Hres. unfold EventService.get_events. by rewrite Hres.
  - intros _. exists (published_sequence (EventService.repository self)).
    assert (Hevents : EventService.get_events self locale page size
      = Ok ((λ event, EventService._transform_to_list_view event locale) <$>
              take (Z.to_nat size)
                (drop (Z.to_nat ((page - 1) * size))
                   (published_sequence (EventService.repository self))))).
    { unfold EventService.get_events. rewrite get_list_Ok by nia. reflexivity. }
    split; [apply published_sequence_perm|].
    split; [apply published_sequence_sorted|].
    split; [intros Hties sequence' Hperm Hsorted; by apply published_sequence_unique|].
    split; [apply get_list_Ok; nia|].
    split; [exact Hevents|].
    split; [|split].
    + intros Hlen. unfold event_router.read_events. simpl.
      repeat case_decide; try lia. exact Hevents.
    + intros -> ->. exact Hevents.
    + intros -> ->. exact Hevents.
Qed.

(** The second page of size 2 of the sample store holds its third
    qualifying row, event 3. *)
Lemma get_events_pagination_witness :
  1 ≤ 2 ∧ 1 ≤ 2 ≤ 100 ∧ (2 - 1) * 2 ≤ max_offset
  ∧ ∃ sequence,
      EventRepository.get_list (EventService.repository sample_service) ((2 - 1) * 2) 2
      = Ok (take (Z.to_nat 2) (drop (Z.to_nat ((2 - 1) * 2)) sequence))
      ∧ Event.id <$> sequence = [4; 1; 3]
      ∧ Event.id <$> take (Z.to_nat 2) (drop (Z.to_nat ((2 - 1) * 2)) sequence) = [3].
Proof.
  split; [lia|]. split; [lia|]. split; [done|].
  destruct (get_events_pagination sample_service "zh-TW" 2 2)
    as (_ & _ & Hwindow); [lia|lia|].
  destruct Hwindow as (sequence & Hperm & Hsorted & Hunique & Hlist & _); [done|].
  assert (Heq : sequence = published_sequence (EventService.repository sample_service)).
  { symmetry. apply Hunique.
    - intros a b Ha Hb.
      apply list_elem_of_In in Ha, Hb. simpl in Ha, Hb.
      intuition (subst; try done; try discriminate).
    - apply published_sequence_perm.
    - apply published_sequence_sorted. }
  exists sequence. split; [exact Hlist|]. by rewrite Heq.
Defined.

(** ** Ordering of the list *)

Lemma window_adjacent {A} (R : relation A) (l : list A) (n k i : nat) a b :
  StronglySorted R l →
  take n (drop k l) !! i = Some a → take n (drop k l) !! S i = Some b → R a b.
Proof.
  intros Hsorted [Ha _]%lookup_take_Some [Hb _]%lookup_take_Some.
  rewrite lookup_drop in Ha, Hb.
  eapply (StronglySorted_lookup_lt R l Hsorted); [exact Ha|exact Hb|lia].
Qed.

Lemma null_le_None a : null_le a None → a = None.
Proof. by destruct a. Qed.

(** C5.  The results of the list operation are ordered by [published_at]
    descending, both the events [get_list] returns and the views
    [get_events] makes of them: of two adjacent results the earlier one
    has a [published_at] at least that of the later one, where a null
    [published_at] counts as lower than every time stamp (MySQL), so that
    results without one come last. *)
Theorem get_list_newest_first (self : EventService.t) :
  (∀ skip limit results,
     EventRepository.get_list (EventService.repository self) skip limit = Ok results →
     ∀ (i : nat) earlier later,
       results !! i = Some earlier → results !! S i = Some later →
       null_le (Event.published_at later) (Event.published_at earlier)
       ∧ (Event.published_at earlier = None → Event.published_at later = None))
  ∧ (∀ locale page page_size views,
       EventService.get_events self locale page page_size = Ok views →
       ∀ (i : nat) earlier later,
         views !! i = Some earlier → views !! S i = Some later →
         null_le (EventListView.published_at later) (EventListView.published_at earlier)
         ∧ (EventListView.published_at earlier = None →
            EventListView.published_at later = None)).
Proof.
  split.
  - intros skip limit results ->%get_list_inv i earlier later Hi Hj.
    assert (Hle : published_at_desc earlier later).
    { eapply window_adjacent; [apply published_sequence_sorted|exact Hi|exact Hj]. }
    split; [exact Hle|]. intros Hnone. unfold published_at_desc in Hle.
    rewrite Hnone in Hle. by apply null_le_None.
  - intros locale page page_size views ->%get_events_inv i earlier later Hi Hj.
    rewrite list_lookup_fmap in Hi, Hj.
    destruct (take _ _ !! i) as [a|] eqn:Ea; [|done].
    destruct (take _ _ !! S i) as [b|] eqn:Eb; [|done].
    injection Hi as <-. injection Hj as <-. simpl.
    assert (Hle : published_at_desc a b).
    { eapply window_adjacent; [apply published_sequence_sorted|exact Ea|exact Eb]. }
    split; [exact Hle|]. intros Hnone. unfold published_at_desc in Hle.
    rewrite Hnone in Hle. by apply null_le_None.
Qed.

(** The first page of the sample store: two dated events, newest first,
    then the one without [published_at]. *)
Lemma get_list_newest_first_witness :
  ∃ views,
    EventService.get_events sample_service "zh-TW" 1 10 = Ok views
    ∧ EventListView.published_at <$> views = [Some 200; Some 100; None]
    ∧ ∀ (i : nat) earlier later,
        views !! i = Some earlier → views !! S i = Some later →
        null_le (EventListView.published_at later) (EventListView.published_at earlier)
        ∧ (EventListView.published_at earlier = None →
           EventListView.published_at later = None).
Proof.
  eexists. split; [reflexivity|]. split; [reflexivity|].
  apply (proj2 (get_list_newest_first sample_service) "zh-TW" 1 10). reflexivity.
Defined.

(** ** Views *)

Lemma attachment_dto_Ok att dto : attachment_dto att = Ok dto ↔ displays att dto.
Proof.
  unfold attachment_dto, AttachmentPublic.init, displays.
  destruct att as [i ev ty pa [ti|] so], dto as [ty' ti' pa']; simpl.
  - split; [by intros [= <- <- <-]|]. by intros (-> & [= ->] & ->).
  - split; [done|]. by intros (_ & ? & _).
Qed.

Lemma attachment_dto_Raise att e :
  attachment_dto att = Raise e →
  EventAttachment.title att = None ∧ e = ValidationError "AttachmentPublic" "title".
Proof.
  unfold attachment_dto, AttachmentPublic.init.
  destruct (EventAttachment.title att); [done|]. by intros [= <-].
Qed.

Lemma attachment_dto_total att : has_title att → ∃ dto, attachment_dto att = Ok dto.
Proof.
  unfold attachment_dto, AttachmentPublic.init, has_title.
  destruct (EventAttachment.title att); [by eexists|done].
Qed.

Lemma transform_to_detail_view_inv event locale v :
  EventService._transform_to_detail_view event locale = Ok v →
  ∃ dtos,
    Forall2 displays (Event.attachments event) dtos
    ∧ v = EventDetailView.mk
            (Event.id event)
            (EventCategory.slug (Event.category event) +:+ "-" +:+ str (Event.id event))
            (EventListView.title (EventService._transform_to_list_view event locale))
            (EventListView.category (EventService._transform_to_list_view event locale))
            (Event.published_at event)
            (Event.organizer_info event)
            (t ← EventService._get_translation event locale; EventTranslation.content t)
            (t ← EventService._get_translation event locale; EventTranslation.location t)
            dtos.
Proof.
  unfold EventService._transform_to_detail_view.
  destruct (comprehension _ _) as [dtos|e] eqn:E; simpl; [|done].
  intros [= <-]. exists dtos. split; [|by destruct (EventService._get_translation _ _)].
  apply comprehension_Ok in E.
  eapply Forall2_impl; [exact E|]. intros att dto. apply attachment_dto_Ok.
Qed.

Lemma transform_to_detail_view_total event locale :
  Forall has_title (Event.attachments event) →
  ∃ v, EventService._transform_to_detail_view event locale = Ok v.
Proof.
  intros Htitles. unfold EventService._transform_to_detail_view.
  destruct (comprehension_total attachment_dto (Event.attachments event)) as [dtos E].
  { eapply Forall_impl; [exact Htitles|]. apply attachment_dto_total. }
  unfold attachment_dto in E. rewrite E. simpl. by eexists.
Qed.

Lemma transform_to_detail_view_Raise event locale e :
  EventService._transform_to_detail_view event locale = Raise e →
  e = ValidationError "AttachmentPublic" "title"
  ∧ ∃ att, att ∈ Event.attachments event ∧ EventAttachment.title att = None.
Proof.
  unfold EventService._transform_to_detail_view.
  destruct (comprehension _ _) as [dtos|e'] eqn:E; simpl; [done|].
  intros [= ->]. apply comprehension_Raise in E as (att & Hin & Hatt).
  apply attachment_dto_Raise in Hatt as [Hnone ->]. eauto.
Qed.

(** C10.  [AttachmentPublic] needs a title string while a stored
    attachment may have none: the detail view of an event is produced
    exactly when every attachment of the event has a title, and with an
    attachment whose title is null the mapping raises the validation
    error of [AttachmentPublic] instead of returning a view. *)
Theorem detail_view_requires_titles (event : Event.t) (locale : string) :
  (∀ type path, AttachmentPublic.init type None path
                = Raise (ValidationError "AttachmentPublic" "title"))
  ∧ (∀ att, att ∈ Event.attachments event → EventAttachment.title att = None →
       EventService._transform_to_detail_view event locale
       = Raise (ValidationError "AttachmentPublic" "title"))
  ∧ (∀ v, EventService._transform_to_detail_view event locale = Ok v →
       Forall has_title (Event.attachments event))
  ∧ (Forall has_title (Event.attachments event) →
       ∃ v, EventService._transform_to_detail_view event locale = Ok v).
Proof.
  assert (Hok : ∀ v, EventService._transform_to_detail_view event locale = Ok v →
                     Forall has_title (Event.attachments event)).
  { intros v (dtos & Hdtos & _)%transform_to_detail_view_inv.
    induction Hdtos as [|att dto atts dtos (_ & Htitle & _) _ IH]; constructor; [|done].
    unfold has_title. by rewrite <-Htitle. }
  split; [done|]. split; [|split; [done|]].
  - intros att Hin Hnone.
    destruct (EventService._transform_to_detail_view event locale) as [v|e] eqn:E.
    + exfalso. specialize (Hok v eq_refl). rewrite Forall_forall in Hok.
      by apply (Hok att Hin).
    + by apply transform_to_detail_view_Raise in E as [-> _].
  - apply transform_to_detail_view_total.
Qed.

(** The service fails in the same way on a published event of the sample
    store, and succeeds on one whose attachments all have titles. *)
Example detail_view_titles_sample :
  EventService.get_event_detail sample_service 3 "zh-TW"
  = Raise (ValidationError "AttachmentPublic" "title")
  ∧ (v <- EventService.get_event_detail sample_service 1 "zh-TW";;
     Ok (AttachmentPublic.title <$> EventDetailView.attachments v))
    = Ok ["a"; "b"].
Proof. split; reflexivity. Qed.

(** C7.  For an event without translations the detail view is to come
    out with content and location absent.  At [untitled_event], which has
    no translation, the code does not get that far: the attachment
    without a title makes the mapping raise, and no detail view comes
    out at all. *)
Lemma no_translation_detail_view_can_fail :
  Event.translations untitled_event = []
  ∧ EventService._transform_to_detail_view untitled_event "zh-TW"
    = Raise (ValidationError "AttachmentPublic" "title")
  ∧ ¬ (∃ v, EventService._transform_to_detail_view untitled_event "zh-TW" = Ok v
            ∧ EventDetailView.content v = None
            ∧ EventDetailView.location v = None).
Proof. split; [done|]. split; [done|]. by intros (v & ? & _). Qed.

(** What the code does for an event without translations: the list view
    has the title "No Translation"; every detail view of it has content
    and location absent, and there is one when no attachment of the event
    makes the mapping raise. *)
Theorem no_translation_views (event : Event.t) (locale : string) :
  Event.translations event = [] →
  EventListView.title (EventService._transform_to_list_view event locale)
  = "No Translation"
  ∧ (∀ v, EventService._transform_to_detail_view event locale = Ok v →
       EventDetailView.title v = "No Translation"
       ∧ EventDetailView.content v = None
       ∧ EventDetailView.location v = None)
  ∧ (Forall has_title (Event.attachments event) →
     ∃ v, EventService._transform_to_detail_view event locale = Ok v
          ∧ EventDetailView.content v = None
          ∧ EventDetailView.location v = None).
Proof.
  intros Hnone.
  assert (Htrans : EventService._get_translation event locale = None).
  { unfold EventService._get_translation. by rewrite Hnone. }
  assert (Htitle : EventListView.title
                     (EventService._transform_to_list_view event locale)
                   = "No Translation").
  { unfold EventService._transform_to_list_view. by rewrite Htrans. }
  assert (Hview : ∀ v, EventService._transform_to_detail_view event locale = Ok v →
       EventDetailView.title v = "No Translation"
       ∧ EventDetailView.content v = None
       ∧ EventDetailView.location v = None).
  { intros v (dtos & _ & ->)%transform_to_detail_view_inv.
    cbn [EventDetailView.title EventDetailView.content EventDetailView.location].
    by rewrite Htitle, Htrans. }
  split; [done|]. split; [done|].
  intros Htitles.
  destruct (transform_to_detail_view_total event locale Htitles) as [v Hv].
  exists v. split; [done|]. by apply Hview.
Qed.

Lemma no_translation_views_witness :
  Event.translations (Sample.event 7 EventStatus.PUBLISHED None None []
                        [Sample.att 1 7 (Some "poster") 0]) = []
  ∧ EventListView.title
      (EventService._transform_to_list_view
         (Sample.event 7 EventStatus.PUBLISHED None None []
            [Sample.att 1 7 (Some "poster") 0]) "en-US")
    = "No Translation"
  ∧ ∃ v, EventService._transform_to_detail_view
           (Sample.event 7 EventStatus.PUBLISHED None None []
              [Sample.att 1 7 (Some "poster") 0]) "en-US" = Ok v
         ∧ EventDetailView.content v = None
         ∧ EventDetailView.location v = None.
Proof.
  split; [reflexivity|].
  destruct (no_translation_views
              (Sample.event 7 EventStatus.PUBLISHED None None []
                 [Sample.att 1 7 (Some "poster") 0]) "en-US" eq_refl)
    as (Htitle & _ & Hdetail).
  split; [exact Htitle|]. apply Hdetail.
  constructor; [discriminate|constructor].
Defined.

(** C8.  A detail view agrees with the list view of the same event and
    locale on the six inherited fields, the slug of both being
    "{category.slug}-{event.id}"; it adds the content and location of the
    resolved translation and the display forms of the attachments. *)
Theorem detail_view_extends_list_view (event : Event.t) (locale : string)
    (v : EventDetailView.t) :
  EventService._transform_to_detail_view event locale = Ok v →
  (EventDetailView.id v
   = EventListView.id (EventService._transform_to_list_view event locale)
   ∧ EventDetailView.slug v
     = EventListView.slug (EventService._transform_to_list_view event locale)
   ∧ EventDetailView.title v
     = EventListView.title (EventService._transform_to_list_view event locale)
   ∧ EventDetailView.category v
     = EventListView.category (EventService._transform_to_list_view event locale)
   ∧ EventDetailView.published_at v
     = EventListView.published_at (EventService._transform_to_list_view event locale)
   ∧ EventDetailView.organizer_info v
     = EventListView.organizer_info (EventService._transform_to_list_view event locale))
  ∧ (EventListView.slug (EventService._transform_to_list_view event locale)
     = EventCategory.slug (Event.category event) +:+ "-" +:+ str (Event.id event)
     ∧ EventDetailView.slug v
       = EventCategory.slug (Event.category event) +:+ "-" +:+ str (Event.id event))
  ∧ (EventDetailView.content v
     = (t ← EventService._get_translation event locale; EventTranslation.content t)
     ∧ EventDetailView.location v
       = (t ← EventService._get_translation event locale; EventTranslation.location t)
     ∧ Forall2 displays (Event.attachments event) (EventDetailView.attachments v)).
Proof.
  intros (dtos & Hdtos & ->)%transform_to_detail_view_inv. simpl.
  by repeat split.
Qed.

Lemma detail_view_extends_list_view_witness :
  ∃ e v,
    Session.events sample_session !! 0%nat = Some e
    ∧ EventService._transform_to_detail_view e "fr-FR" = Ok v
    ∧ EventDetailView.slug v = "talk-1"
    ∧ EventDetailView.title v = "Salut"
    ∧ EventDetailView.slug v
      = EventListView.slug (EventService._transform_to_list_view e "fr-FR")
    ∧ EventDetailView.title v
      = EventListView.title (EventService._transform_to_list_view e "fr-FR").
Proof.
  eexists _, _. split; [reflexivity|]. split; [reflexivity|].
  split; [reflexivity|]. split; [reflexivity|].
  destruct (detail_view_extends_list_view
              (Sample.event 1 EventStatus.PUBLISHED (Some 100) None
                 [Sample.tr 1 1 "en-US" "Hello"; Sample.tr 2 1 "fr-FR" "Salut"]
                 [Sample.att 1 1 (Some "b") 2; Sample.att 2 1 (Some "a") 1])
              "fr-FR" _ eq_refl) as ((_ & Hslug & Htitle & _) & _).
  split; [exact Hslug|exact Htitle].
Defined.

(** ** The detail operation *)

Lemma selectinload_titles row :
  Forall has_title (Event.attachments row) →
  Forall has_title (Event.attachments (selectinload row)).
Proof.
  simpl. intros H. rewrite Forall_forall in H. apply Forall_forall.
  intros att Hatt. apply H. by rewrite order_by_perm in Hatt.
Qed.

(** C6.  The detail operation is to return the detail view of every
    event that passes the filters.  Event 3 of the sample store passes
    both, and the list shows it, yet the detail operation raises a
    validation error on its attachment without a title and returns no
    view. *)
Lemma get_event_detail_can_fail_on_visible_event :
  untitled_event ∈ Session.events sample_session
  ∧ visible untitled_event
  ∧ EventService.get_event_detail sample_service (Event.id untitled_event) "zh-TW"
    = Raise (ValidationError "AttachmentPublic" "title")
  ∧ ¬ (∃ v, EventService.get_event_detail sample_service
              (Event.id untitled_event) "zh-TW" = Ok v).
Proof.
  split; [|split; [done|split; [done|by intros [v ?]]]].
  right. right. left.
Qed.

(** What the code does: when the id belongs to no row, or only to a row
    that is soft-deleted or not published, [get_event_detail] raises the
    404 "Event not found"; when it is the id of a visible row (ids being
    the primary key) none of whose attachments makes the mapping raise,
    it returns the detail view of that row. *)
Theorem get_event_detail_found_or_404 (self : EventService.t)
    (event_id : Z) (locale : string) :
  ((∀ row, row ∈ Session.events (EventRepository.session (EventService.repository self)) →
           Event.id row = event_id →
           Event.deleted_at row ≠ None ∨ Event.status row ≠ EventStatus.PUBLISHED) →
   EventService.get_event_detail self event_id locale
   = Raise (HTTPException 404 "Event not found"))
  ∧ (primary_key (EventRepository.session (EventService.repository self)) →
     ∀ row, row ∈ Session.events (EventRepository.session (EventService.repository self)) →
       Event.id row = event_id →
       Event.deleted_at row = None → Event.status row = EventStatus.PUBLISHED →
       Forall has_title (Event.attachments row) →
       ∃ v, EventService.get_event_detail self event_id locale = Ok v
            ∧ EventService._transform_to_detail_view (selectinload row) locale = Ok v).
Proof.
  unfold EventService.get_event_detail. split.
  - intros Hhidden.
    assert (EventRepository.get_by_id (EventService.repository self) event_id = None) as ->;
      [|done].
    apply get_by_id_None. intros row Hin Hid [Hdel Hst].
    destruct (Hhidden row Hin Hid); tauto.
  - intros Hpk row Hin <- Hdel Hst Htitles.
    rewrite (get_by_id_pk _ row Hpk Hin (conj Hdel Hst)).
    destruct (transform_to_detail_view_total (selectinload row) locale) as [v Hv].
    { by apply selectinload_titles. }
    by exists v.
Qed.

(** On the sample store: an unknown id, a draft and a soft-deleted event
    all give the 404, and event 4 gives its view. *)
Example get_event_detail_sample :
  EventService.get_event_detail sample_service 99 "zh-TW"
  = Raise (HTTPException 404 "Event not found")
  ∧ EventService.get_event_detail sample_service 2 "zh-TW"
    = Raise (HTTPException 404 "Event not found")
  ∧ EventService.get_event_detail sample_service 5 "zh-TW"
    = Raise (HTTPException 404 "Event not found")
  ∧ (v <- event_router.read_event_detail 4 None sample_service;;
     Ok (EventDetailView.slug v, EventDetailView.title v))
    = Ok ("talk-4", "嗨").
Proof. repeat split. Qed.

(** Event 1 of the sample store is visible and both its attachments have
    a title: its detail view is returned. *)
Lemma get_event_detail_found_or_404_witness :
  primary_key sample_session
  ∧ ∃ v, EventService.get_event_detail sample_service 1 "en-US" = Ok v
         ∧ EventDetailView.title v = "Hello".
Proof.
  split; [exact sample_primary_key|].
  destruct (proj2 (get_event_detail_found_or_404 sample_service 1 "en-US")
              sample_primary_key
              (Sample.event 1 EventStatus.PUBLISHED (Some 100) None
                 [Sample.tr 1 1 "en-US" "Hello"; Sample.tr 2 1 "fr-FR" "Salut"]
                 [Sample.att 1 1 (Some "b") 2; Sample.att 2 1 (Some "a") 1]))
    as (v & Hv & _).
  - left.
  - reflexivity.
  - reflexivity.
  - reflexivity.
  - repeat constructor; discriminate.
  - exists v. split; [exact Hv|].
    assert (Ok v = EventService.get_event_detail sample_service 1 "en-US") as Heq
      by (symmetry; exact Hv).
    by injection Heq as ->.
Defined.

(** ** Attachments *)

(** C9.  The attachments of a detail view returned by
    [get_event_detail] are the display forms (type, title, path), in the
    same order, of the attachments of the event read, and these are the
    stored attachments of the row in ascending [sort_order]. *)
Theorem detail_attachments_in_sort_order (self : EventService.t)
    (event_id : Z) (locale : string) (v : EventDetailView.t) :
  EventService.get_event_detail self event_id locale = Ok v →
  ∃ row event,
    row ∈ Session.events (EventRepository.session (EventService.repository self))
    ∧ EventRepository.get_by_id (EventService.repository self) event_id = Some event
    ∧ Event.attachments event ≡ₚ Event.attachments row
    ∧ StronglySorted sort_order_asc (Event.attachments event)
    ∧ Forall2 displays (Event.attachments event) (EventDetailView.attachments v).
Proof.
  unfold EventService.get_event_detail.
  destruct (EventRepository.get_by_id _ _) as [event|] eqn:E; [|done].
  intros (dtos & Hdtos & ->)%transform_to_detail_view_inv.
  apply get_by_id_Some in E as (row & -> & l1 & l2 & Hrows & _).
  exists row, (selectinload row). split; [|split; [done|split; [|split; [|done]]]].
  - rewrite Hrows. apply elem_of_app. right. left.
  - apply order_by_perm.
  - apply order_by_sorted; apply _.
Qed.

Lemma detail_attachments_in_sort_order_witness :
  ∃ v,
    EventService.get_event_detail sample_service 1 "zh-TW" = Ok v
    ∧ AttachmentPublic.title <$> EventDetailView.attachments v = ["a"; "b"]
    ∧ ∃ row event,
        row ∈ Session.events (EventRepository.session (EventService.repository sample_service))
        ∧ EventRepository.get_by_id (EventService.repository sample_service) 1 = Some event
        ∧ Event.attachments event ≡ₚ Event.attachments row
        ∧ StronglySorted sort_order_asc (Event.attachments event)
        ∧ Forall2 displays (Event.attachments event) (EventDetailView.attachments v).
Proof.
  eexists. split; [reflexivity|]. split; [reflexivity|].
  apply (detail_attachments_in_sort_order sample_service 1 "zh-TW"). reflexivity.
Defined.

(** * Further properties *)

(** ** The router *)

Lemma get_events_Ok (self : EventService.t) locale page page_size :
  1 ≤ page → 0 ≤ page_size →
  EventService.get_events self locale page page_size
  = Ok ((λ event, EventService._transform_to_list_view event locale) <$>
          take (Z.to_nat page_size)
            (drop (Z.to_nat ((page - 1) * page_size))
               (published_sequence (EventService.repository self)))).
Proof.
  intros Hpage Hsize. unfold EventService.get_events.
  rewrite get_list_Ok by nia. reflexivity.
Qed.

(** X2.  A request that passes validation, and whose offset
    [(page - 1) * size] is one the server accepts, always gets a list:
    the list endpoint raises nothing (neither a 404 nor a validation
    error of a view, whatever the stored attachments are), and the list
    has at most [size] entries, hence at most 100. *)
Theorem read_events_total_and_bounded (locale : option string)
    (page size : option Z) (service : EventService.t) :
  valid_request (default "zh-TW" locale) (default 1 page) (default 10 size) →
  (default 1 page - 1) * default 10 size ≤ max_offset →
  ∃ views,
    event_router.read_events locale page size service = Ok views
    ∧ Z.of_nat (length views) ≤ default 10 size
    ∧ Z.of_nat (length views) ≤ 100.
Proof.
  intros Hvalid _. pose proof Hvalid as (Hl & Hp & Hn).
  unfold event_router.read_events.
  repeat case_decide; try lia. simpl.
  rewrite get_events_Ok by lia. eexists. split; [reflexivity|].
  rewrite length_fmap, length_take. lia.
Qed.

(** The sample store holds an attachment without a title, which makes the
    detail of event 3 fail; the list still comes out. *)
Lemma read_events_total_and_bounded_witness :
  valid_request "zh-TW" 1 2
  ∧ (1 - 1) * 2 ≤ max_offset
  ∧ ∃ views,
      event_router.read_events None None (Some 2) sample_service = Ok views
      ∧ Z.of_nat (length views) ≤ 2
      ∧ Z.of_nat (length views) ≤ 100.
Proof.
  assert (Hvalid : valid_request "zh-TW" 1 2).
  { unfold valid_request. simpl. lia. }
  split; [exact Hvalid|]. split; [done|].
  apply (read_events_total_and_bounded None None (Some 2) sample_service Hvalid).
  done.
Defined.

(** ** Windows of the listing *)





(** X4.  The number of rows [get_list] returns is the smaller of [limit]
    and what is left of the qualifying rows after [skip]: a window past
    the end, or over an empty store, is the empty list and no error. *)
Theorem get_list_length (self : EventRepository.t) (skip limit : Z)
    (results : list Event.t) :
  EventRepository.get_list self skip limit = Ok results →
  length results
  = Nat.min (Z.to_nat limit)
      (length (EventRepository.qualifying self) - Z.to_nat skip)
  ∧ (Z.of_nat (length (EventRepository.qualifying self)) ≤ skip → results = []).
Proof.
  intros ->%get_list_inv.
  assert (Hlen : length (published_sequence self)
                 = length (EventRepository.qualifying self)).
  { unfold published_sequence. rewrite length_fmap.
    apply Permutation_length, order_by_perm. }
  split.
  - by rewrite length_take, length_drop, Hlen.
  - intros Hpast. rewrite drop_ge by lia. by destruct (Z.to_nat limit).
Qed.

Lemma get_list_length_witness :
  EventRepository.get_list (EventRepository.mk sample_session) 3 10 = Ok []
  ∧ length (EventRepository.qualifying (EventRepository.mk sample_session)) = 3%nat
  ∧ length ([] : list Event.t)
    = Nat.min (Z.to_nat 10)
        (length (EventRepository.qualifying (EventRepository.mk sample_session))
         - Z.to_nat 3).
Proof.
  split; [reflexivity|]. split; [reflexivity|].
  apply (get_list_length (EventRepository.mk sample_session) 3 10 []). reflexivity.
Defined.

(** ** The listing as a whole *)

Lemma get_list_nonneg (self : EventRepository.t) skip limit results :
  EventRepository.get_list self skip limit = Ok results → 0 ≤ skip ∧ 0 ≤ limit.
Proof.
  unfold EventRepository.get_list, offset_limit.
  case_decide; [done|]. intros _. lia.
Qed.

Lemma published_sequence_ids (self : EventRepository.t) :
  primary_key (EventRepository.session self) →
  NoDup (Event.id <$> published_sequence self).
Proof.
  intros Hpk. rewrite published_sequence_perm, <-list_fmap_compose.
  apply (sublist_NoDup _ (Event.id <$> Session.events (EventRepository.session self)));
    [exact Hpk|].
  apply fmap_sublist. unfold EventRepository.qualifying.
  etrans; [apply sublist_filter|]. apply sublist_filter.
Qed.





(** X7.  With [id] the primary key no event is listed twice in a page:
    the ids of the events [get_list] returns are pairwise distinct. *)
Theorem get_list_no_duplicates (self : EventRepository.t) :
  primary_key (EventRepository.session self) →
  ∀ skip limit results,
    EventRepository.get_list self skip limit = Ok results →
    NoDup (Event.id <$> results).
Proof.
  intros Hpk skip limit results ->%get_list_inv.
  apply (sublist_NoDup _ (Event.id <$> published_sequence self));
    [by apply published_sequence_ids|].
  apply fmap_sublist. etrans; [apply sublist_take|]. apply sublist_drop.
Qed.

Lemma get_list_no_duplicates_witness :
  primary_key sample_session
  ∧ ∃ results,
      EventRepository.get_list (EventRepository.mk sample_session) 0 10 = Ok results
      ∧ Event.id <$> results = [4; 1; 3]
      ∧ NoDup (Event.id <$> results).
Proof.
  split; [exact sample_primary_key|].
  eexists. split; [reflexivity|]. split; [reflexivity|].
  apply (get_list_no_duplicates (EventRepository.mk sample_session)
           sample_primary_key 0 10).
  reflexivity.
Defined.

(** ** Outcomes of the detail operation *)

Lemma not_visible_iff (row : Event.t) :
  ¬ visible row
  ↔ Event.deleted_at row ≠ None ∨ Event.status row ≠ EventStatus.PUBLISHED.
Proof.
  unfold visible.
  destruct (decide (Event.deleted_at row = None)),
           (decide (Event.status row = EventStatus.PUBLISHED)); tauto.
Qed.

Lemma get_by_id_row (self : EventRepository.t) event_id e :
  EventRepository.get_by_id self event_id = Some e →
  ∃ row, e = selectinload row
         ∧ row ∈ Session.events (EventRepository.session self)
         ∧ Event.id row = event_id ∧ visible row.
Proof.
  intros (row & -> & l1 & l2 & Hrows & _ & Hid & Hvis)%get_by_id_Some.
  exists row. repeat split; try done; try apply Hvis.
  rewrite Hrows. apply elem_of_app. right. left.
Qed.

(** X8.  [get_event_detail] raises nothing but the 404 and the
    validation error of an attachment title.  It raises the 404 exactly
    when no row with the requested id is visible, and the validation
    error only for a visible row with that id that has an attachment
    without a title. *)
Theorem get_event_detail_outcomes (self : EventService.t) (event_id : Z)
    (locale : string) :
  (∀ e, EventService.get_event_detail self event_id locale = Raise e →
        e = HTTPException 404 "Event not found"
        ∨ e = ValidationError "AttachmentPublic" "title")
  ∧ (EventService.get_event_detail self event_id locale
     = Raise (HTTPException 404 "Event not found")
     ↔ ∀ row, row ∈ Session.events (EventRepository.session (EventService.repository self)) →
              Event.id row = event_id →
              Event.deleted_at row ≠ None ∨ Event.status row ≠ EventStatus.PUBLISHED)
  ∧ (EventService.get_event_detail self event_id locale
     = Raise (ValidationError "AttachmentPublic" "title") →
     ∃ row att,
       row ∈ Session.events (EventRepository.session (EventService.repository self))
       ∧ Event.id row = event_id
       ∧ Event.deleted_at row = None ∧ Event.status row = EventStatus.PUBLISHED
       ∧ att ∈ Event.attachments row ∧ EventAttachment.title att = None).
Proof.
  unfold EventService.get_event_detail.
  destruct (EventRepository.get_by_id (EventService.repository self) event_id)
    as [event|] eqn:E.
  - destruct (get_by_id_row _ _ _ E) as (row & -> & Hin & Hid & Hvis).
    split; [|split].
    + intros e [-> _]%transform_to_detail_view_Raise. by right.
    + split.
      * by intros [? _]%transform_to_detail_view_Raise.
      * intros Hhidden. exfalso.
        by apply (proj2 (not_visible_iff row) (Hhidden row Hin Hid)).
    + intros (_ & att & Hatt & Hnone)%transform_to_detail_view_Raise.
      exists row, att. destruct Hvis as [Hdel Hst]. repeat split; try done.
      simpl in Hatt. by rewrite order_by_perm in Hatt.
  - split; [|split].
    + intros e [= <-]. by left.
    + split; [|done]. intros _ row Hin Hid. apply not_visible_iff.
      by apply (proj1 (get_by_id_None _ _) E).
    + done.
Qed.

(** X9.  A detail view that [get_event_detail] returns is the view of a
    visible row with the requested id: it carries that id, the slug
    "{category.slug}-{event_id}", the row's [published_at] and
    [organizer_info], and as many attachments as the row has. *)
Theorem get_event_detail_returns_requested_event (self : EventService.t)
    (event_id : Z) (locale : string) (v : EventDetailView.t) :
  EventService.get_event_detail self event_id locale = Ok v →
  EventDetailView.id v = event_id
  ∧ ∃ row,
      row ∈ Session.events (EventRepository.session (EventService.repository self))
      ∧ Event.id row = event_id
      ∧ Event.deleted_at row = None ∧ Event.status row = EventStatus.PUBLISHED
      ∧ EventDetailView.slug v
        = EventCategory.slug (Event.category row) +:+ "-" +:+ str event_id
      ∧ CategoryPublic.slug (EventDetailView.category v)
        = EventCategory.slug (Event.category row)
      ∧ EventDetailView.published_at v = Event.published_at row
      ∧ EventDetailView.organizer_info v = Event.organizer_info row
      ∧ length (EventDetailView.attachments v) = length (Event.attachments row).
Proof.
  unfold EventService.get_event_detail.
  destruct (EventRepository.get_by_id (EventService.repository self) event_id)
    as [event|] eqn:E; [|done].
  destruct (get_by_id_row _ _ _ E) as (row & -> & Hin & <- & Hdel & Hst).
  intros (dtos & Hdtos & ->)%transform_to_detail_view_inv.
  split; [done|]. exists row. repeat split; try done.
  simpl. apply Forall2_length in Hdtos. rewrite <-Hdtos.
  apply Permutation_length, order_by_perm.
Qed.

Lemma get_event_detail_returns_requested_event_witness :
  ∃ v,
    EventService.get_event_detail sample_service 1 "fr-FR" = Ok v
    ∧ EventDetailView.id v = 1
    ∧ EventDetailView.slug v = "talk-1"
    ∧ length (EventDetailView.attachments v) = 2%nat.
Proof.
  eexists. split; [reflexivity|].
  destruct (get_event_detail_returns_requested_event sample_service 1 "fr-FR" _ eq_refl)
    as (Hid & _).
  split; [exact Hid|]. split; reflexivity.
Defined.



(** ** Translation and text resolution *)

Lemma get_translation_found (event : Event.t) (locale : string) :
  ∀ t, t ∈ Event.translations event → has_locale locale t →
    ∃ t', first_with (has_locale locale) (Event.translations event) t'
          ∧ EventService._get_translation event locale = Some t'.
Proof.
  intros t Hin Ht. unfold EventService._get_translation.
  destruct (first_with_exists _ _ (locale_test locale) _ t Hin Ht) as [t' Ht'].
  exists t'. split; [done|].
  by rewrite (next_first_with _ _ (locale_test locale) _ None t' Ht').
Qed.

Lemma next_Some_inv {A} (p : A -> bool) (xs : list A) default x :
  next p xs default = Some x → x ∈ xs ∨ default = Some x.
Proof.
  induction xs as [|y xs IH]; simpl; [by right|].
  destruct (p y).
  - intros [= ->]. left. left.
  - intros [Hin|Hd]%IH; [left; by right|by right].
Qed.

Lemma next_default_Some {A} (p : A -> bool) (xs : list A) d :
  next p xs (Some d) ≠ None.
Proof. induction xs as [|y xs IH]; simpl; [done|]. by destruct (p y). Qed.

(** X11.  [_get_translation] never invents a translation: what it
    returns is one of the event's own translations, and it returns
    [None] only for an event without translations.  Hence the list view
    of an event that has translations carries the title of one of them,
    never the placeholder put in for a missing translation. *)
Theorem get_translation_is_stored (event : Event.t) (locale : string) :
  (∀ t, EventService._get_translation event locale = Some t →
        t ∈ Event.translations event)
  ∧ (EventService._get_translation event locale = None
     ↔ Event.translations event = [])
  ∧ (Event.translations event ≠ [] →
     ∃ t, t ∈ Event.translations event
          ∧ EventService._get_translation event locale = Some t
          ∧ EventListView.title (EventService._transform_to_list_view event locale)
            = EventTranslation.title t).
Proof.
  assert (Hin : ∀ t, EventService._get_translation event locale = Some t →
                     t ∈ Event.translations event).
  { unfold EventService._get_translation. intros t.
    destruct (next _ (Event.translations event) None) as [t'|] eqn:E.
    - intros [= <-]. by apply next_Some_inv in E as [?|?].
    - destruct (Event.translations event) as [|t0 ts] eqn:Ets; [done|].
      intros [?|[= <-]]%next_Some_inv; [done|left]. }
  assert (Hnone : EventService._get_translation event locale = None
                  ↔ Event.translations event = []).
  { unfold EventService._get_translation. split.
    - destruct (next _ (Event.translations event) None) as [t'|] eqn:E; [done|].
      destruct (Event.translations event) as [|t0 ts] eqn:Ets; [done|].
      intros Hn. by apply next_default_Some in Hn.
    - by intros ->. }
  split; [done|]. split; [done|].
  intros Hne.
  destruct (EventService._get_translation event locale) as [t|] eqn:E.
  - exists t. split; [by apply Hin|]. split; [done|].
    unfold EventService._transform_to_list_view. by rewrite E.
  - exfalso. apply Hne. by apply Hnone.
Qed.

(** X12.  Asking for a locale the data does not have is the same as
    asking for "zh-TW": for an event without a translation in [locale]
    the resolved translation is that of "zh-TW"; for a map with nothing
    at [locale] the text is that of "zh-TW"; and when both hold the whole
    list view, and then the detail view, is the "zh-TW" one. *)
Theorem missing_locale_reads_as_zh_TW (event : Event.t) (locale : string) :
  (Forall (λ t, ¬ has_locale locale t) (Event.translations event) →
   EventService._get_translation event locale
   = EventService._get_translation event "zh-TW")
  ∧ (∀ data_dict default,
       missing data_dict locale →
       EventService._get_json_text data_dict locale default
       = EventService._get_json_text data_dict "zh-TW" default)
  ∧ (Forall (λ t, ¬ has_locale locale t) (Event.translations event) →
     missing (EventCategory.names (Event.category event)) locale →
     EventService._transform_to_list_view event locale
     = EventService._transform_to_list_view event "zh-TW"
     ∧ EventService._transform_to_detail_view event locale
       = EventService._transform_to_detail_view event "zh-TW").
Proof.
  assert (Htrans : Forall (λ t, ¬ has_locale locale t) (Event.translations event) →
     EventService._get_translation event locale
     = EventService._get_translation event "zh-TW").
  { intros Hno. unfold EventService._get_translation.
    rewrite (next_no_match _ _ (locale_test locale) _ None Hno).
    destruct (Event.translations event) as [|t0 ts] eqn:E; [done|].
    destruct (next _ (t0 :: ts) None) as [t|] eqn:Ezh; [|done].
    destruct (next_Some_inv _ _ _ _ Ezh) as [Hin|?]; [|done].
    assert (Ht : has_locale "zh-TW" t).
    { clear -Ezh. revert Ezh. generalize (t0 :: ts). intros l.
      induction l as [|y l IH]; simpl; [done|].
      destruct (bool_decide _) eqn:Ey; [|done].
      intros [= <-]. by apply bool_decide_eq_true in Ey. }
    destruct (first_with_exists _ _ (locale_test "zh-TW") _ t Hin Ht) as [t' Ht'].
    rewrite (next_first_with _ _ (locale_test "zh-TW") _ None t' Ht') in Ezh.
    rewrite (next_first_with _ _ (locale_test "zh-TW") _ _ t' Ht').
    done. }
  assert (Htext : ∀ data_dict default,
       missing data_dict locale →
       EventService._get_json_text data_dict locale default
       = EventService._get_json_text data_dict "zh-TW" default).
  { intros data_dict default Hmiss. unfold EventService._get_json_text.
    destruct (decide (data_dict = ∅)); [done|].
    unfold py_or. destruct Hmiss as [-> | ->]; simpl;
      by destruct (data_dict !! "zh-TW") as [[|c s']|]. }
  split; [done|]. split; [done|].
  intros Hno Hmiss.
  assert (Hlist : EventService._transform_to_list_view event locale
                  = EventService._transform_to_list_view event "zh-TW").
  { unfold EventService._transform_to_list_view.
    by rewrite (Htrans Hno), (Htext _ _ Hmiss). }
  split; [done|].
  unfold EventService._transform_to_detail_view.
  by rewrite Hlist, (Htrans Hno).
Qed.

(** X13.  [_get_json_text] returns either the default or a non-empty
    text stored at the requested locale or at "zh-TW"; with a non-empty
    default it never returns the empty string, so the category name of a
    list view is never empty. *)
Theorem get_json_text_result (data_dict : gmap string string)
    (locale default : string) :
  (EventService._get_json_text data_dict locale default = default
   ∨ (EventService._get_json_text data_dict locale default ≠ ""
      ∧ (data_dict !! locale
         = Some (EventService._get_json_text data_dict locale default)
         ∨ data_dict !! "zh-TW"
           = Some (EventService._get_json_text data_dict locale default))))
  ∧ (default ≠ "" → EventService._get_json_text data_dict locale default ≠ "")
  ∧ (∀ event,
       CategoryPublic.name
         (EventListView.category (EventService._transform_to_list_view event locale))
       ≠ "").
Proof.
  assert (Hres : ∀ m d,
    EventService._get_json_text m locale d = d
    ∨ (EventService._get_json_text m locale d ≠ ""
       ∧ (m !! locale = Some (EventService._get_json_text m locale d)
          ∨ m !! "zh-TW" = Some (EventService._get_json_text m locale d)))).
  { intros m d. unfold EventService._get_json_text, py_or.
    destruct (decide (m = ∅)); [by left|].
    destruct (m !! locale) as [[|c s]|] eqn:El; simpl;
      destruct (m !! "zh-TW") as [[|c' s']|] eqn:Ez; simpl;
      try (by left); right; (split; [done|]); auto. }
  assert (Hne : ∀ m d, d ≠ "" → EventService._get_json_text m locale d ≠ "").
  { intros m d Hd. by destruct (Hres m d) as [-> | [? _]]. }
  split; [apply Hres|]. split; [apply Hne|].
  intros event. simpl. by apply Hne.
Qed.

(** ** The synthetic slug *)

Lemma str_inj (a b : Z) : str a = str b → a = b.
Proof.
  unfold str. intros Heq. apply DecimalZ.to_int_inj.
  assert (Hparse : ∀ n, NilZero.int_of_string (NilZero.string_of_int (Z.to_int n))
                        = Some (Z.to_int n)).
  { intros n. apply NilZero.isi; destruct n as [|p|p]; simpl; try done;
      intros [= Hnil]; by apply DecimalPos.Unsigned.to_uint_nonnil in Hnil. }
  pose proof (Hparse a) as Ha. rewrite Heq, Hparse in Ha. by injection Ha.
Qed.

Lemma digits_dash_free (d : Decimal.uint) : dash_free (NilEmpty.string_of_uint d).
Proof. induction d; simpl; try done; split; done. Qed.

Lemma str_dash_free (n : Z) : 0 ≤ n → dash_free (str n).
Proof.
  unfold str. destruct n as [|p|p]; [done| |lia]. intros _. simpl.
  unfold NilZero.string_of_uint.
  destruct (Pos.to_uint p); try apply (digits_dash_free (_ _)). done.
Qed.

Lemma dash_free_no_dash (s1 s2 : string) : ¬ dash_free (s1 +:+ String "-" s2).
Proof. induction s1 as [|c s1 IH]; simpl; [by intros [? _]|]. by intros [_ ?]. Qed.

Lemma append_dash_inj (s1 s2 d1 d2 : string) :
  dash_free d1 → dash_free d2 →
  s1 +:+ String "-" d1 = s2 +:+ String "-" d2 → s1 = s2 ∧ d1 = d2.
Proof.
  intros Hd1 Hd2. revert s2.
  induction s1 as [|c s1 IH]; intros [|c' s2]; simpl.
  - by intros [= ->].
  - intros [= <- ->]. by apply dash_free_no_dash in Hd1.
  - intros [= -> <-]. by apply dash_free_no_dash in Hd2.
  - intros [= -> Heq]. by destruct (IH _ Heq) as [-> ->].
Qed.

(** X14.  The synthetic slug identifies the event: for ids that are not
    negative (the key is an unsigned auto-increment), two views with the
    same slug belong to events with the same id and the same category
    slug, whatever the locales.  Within one category the slug tells ids
    apart without any condition on their sign. *)
Theorem slug_identifies_event (event1 event2 : Event.t) (locale1 locale2 : string) :
  EventListView.slug (EventService._transform_to_list_view event1 locale1)
  = EventListView.slug (EventService._transform_to_list_view event2 locale2) →
  (0 ≤ Event.id event1 → 0 ≤ Event.id event2 →
   Event.id event1 = Event.id event2
   ∧ EventCategory.slug (Event.category event1)
     = EventCategory.slug (Event.category event2))
  ∧ (EventCategory.slug (Event.category event1)
     = EventCategory.slug (Event.category event2) →
     Event.id event1 = Event.id event2).
Proof.
  simpl. intros Hslug. split.
  - intros H1 H2.
    destruct (append_dash_inj _ _ _ _ (str_dash_free _ H1) (str_dash_free _ H2) Hslug)
      as [Hcat Hid].
    split; [by apply str_inj|done].
  - intros Hcat. rewrite Hcat in Hslug.
    apply str_inj. revert Hslug. generalize (EventCategory.slug (Event.category event2)).
    intros s. induction s as [|c s IH]; simpl; [by intros [= ?]|].
    intros [= ?]. by apply IH.
Qed.

Lemma slug_identifies_event_witness :
  ∃ e1 e2,
    Session.events sample_session !! 0%nat = Some e1
    ∧ EventRepository.get_by_id (EventRepository.mk sample_session) 1 = Some e2
    ∧ EventListView.slug (EventService._transform_to_list_view e1 "en-US")
      = EventListView.slug (EventService._transform_to_list_view e2 "fr-FR")
    ∧ Event.id e1 = Event.id e2.
Proof.
  set (e1 := Sample.event 1 EventStatus.PUBLISHED (Some 100) None
                [Sample.tr 1 1 "en-US" "Hello"; Sample.tr 2 1 "fr-FR" "Salut"]
                [Sample.att 1 1 (Some "b") 2; Sample.att 2 1 (Some "a") 1]).
  exists e1, (selectinload e1).
  split; [reflexivity|]. split; [reflexivity|]. split; [reflexivity|].
  destruct (proj1 (slug_identifies_event e1 (selectinload e1) "en-US" "fr-FR" eq_refl))
    as [Hid _]; [done..|exact Hid].
Defined.

(** Without the sign condition slugs can collide across categories:
    category "a" with id -1 and category "a-" with id 1 both give "a--1". *)
Example slug_collision_with_negative_id :
  EventCategory.slug (Event.category event_negative_id)
  ≠ EventCategory.slug (Event.category event_dash_category)
  ∧ EventListView.slug (EventService._transform_to_list_view event_negative_id "zh-TW")
    = EventListView.slug (EventService._transform_to_list_view event_dash_category "zh-TW").
Proof. split; [discriminate|reflexivity]. Qed.

(** ** Unique locales *)

Lemma NoDup_fmap_elem_inj {A B} (f : A -> B) (l : list A) x y :
  NoDup (f <$> l) → x ∈ l → y ∈ l → f x = f y → x = y.
Proof.
  induction l as [|a l IH]; intros Hnd Hx Hy Hf; [by apply elem_of_nil in Hx|].
  rewrite fmap_cons in Hnd. apply NoDup_cons in Hnd as [Ha Hnd].
  apply elem_of_cons in Hx as [->|Hx]; apply elem_of_cons in Hy as [->|Hy]; auto.
  - exfalso. apply Ha. rewrite Hf. by apply list_elem_of_fmap_2.
  - exfalso. apply Ha. rewrite <-Hf. by apply list_elem_of_fmap_2.
Qed.

(** X15.  Translations are unique per (event, locale).  For an event
    that satisfies this constraint, [_get_translation] returns the one
    translation in the requested locale wherever it stands in the stored
    order, and the views carry its title, content and location. *)
Theorem get_translation_unique_locale (event : Event.t) (locale : string)
    (t : EventTranslation.t) :
  NoDup (EventTranslation.locale <$> Event.translations event) →
  t ∈ Event.translations event →
  EventTranslation.locale t = locale →
  EventService._get_translation event locale = Some t
  ∧ EventListView.title (EventService._transform_to_list_view event locale)
    = EventTranslation.title t
  ∧ ∀ v, EventService._transform_to_detail_view event locale = Ok v →
         EventDetailView.title v = EventTranslation.title t
         ∧ EventDetailView.content v = EventTranslation.content t
         ∧ EventDetailView.location v = EventTranslation.location t.
Proof.
  intros Hnd Hin Hloc.
  assert (Hres : EventService._get_translation event locale = Some t).
  { destruct (get_translation_found event locale t Hin Hloc)
      as (t' & (l1 & l2 & Hts & _ & Ht') & ->).
    f_equal. apply (NoDup_fmap_elem_inj EventTranslation.locale _ t' t Hnd);
      [|done|by rewrite Hloc].
    rewrite Hts. apply elem_of_app. right. left. }
  assert (Htitle : EventListView.title
                     (EventService._transform_to_list_view event locale)
                   = EventTranslation.title t).
  { unfold EventService._transform_to_list_view. by rewrite Hres. }
  split; [done|]. split; [done|].
  intros v (dtos & _ & ->)%transform_to_detail_view_inv.
  cbn [EventDetailView.title EventDetailView.content EventDetailView.location].
  by rewrite Htitle, Hres.
Qed.

Lemma get_translation_unique_locale_witness :
  ∃ e,
    Session.events sample_session !! 0%nat = Some e
    ∧ NoDup (EventTranslation.locale <$> Event.translations e)
    ∧ EventService._get_translation e "fr-FR" = Some (Sample.tr 2 1 "fr-FR" "Salut").
Proof.
  set (e1 := Sample.event 1 EventStatus.PUBLISHED (Some 100) None
                [Sample.tr 1 1 "en-US" "Hello"; Sample.tr 2 1 "fr-FR" "Salut"]
                [Sample.att 1 1 (Some "b") 2; Sample.att 2 1 (Some "a") 1]).
  assert (Hnd : NoDup (EventTranslation.locale <$> Event.translations e1)).
  { by apply (bool_decide_unpack _). }
  exists e1. split; [reflexivity|]. split; [exact Hnd|].
  apply (get_translation_unique_locale e1 "fr-FR" (Sample.tr 2 1 "fr-FR" "Salut") Hnd).
  - right. left.
  - reflexivity.
Defined.
